(** * scrolling_text.py: the Amiga-style terminal demo

    A shallow embedding of [main] of [src/scrolling_text.py] and the
    properties of its frame renderer, its scroller window, its per-frame
    counters and its terminal clean-up.

    Python values are modelled as follows: an [int] is a [Z]; a [str] is
    the list of its Unicode code points; a [list] is a [list]; the
    [colors] dict is a [gmap] with string keys.  Every call that talks to
    the terminal (write, flush, print, sleep, the size query) is an
    operation of a small monad that logs the calls and takes the outcome
    of each call from a script of replies. *)

From Stdlib Require Import ZArith NArith Ascii Lia.
From stdpp Require Import base list strings gmap.

Local Open Scope Z_scope.

(** ** Python strings and the operations [main] uses on them *)

Module Py.

(** A [str]: its code points, in order. *)
Abbreviation str := (list N).

(** The source file is UTF-8: a literal denotes the code points its
    bytes decode to.  A malformed tail decodes to nothing. *)
Fixpoint utf8_decode (bs : list N) : str :=
  match bs with
  | [] => []
  | b0 :: r0 =>
      if (b0 <? 128)%N then b0 :: utf8_decode r0
      else if (b0 <? 224)%N then
        match r0 with
        | b1 :: r1 => ((b0 mod 32) * 64 + b1 mod 64)%N :: utf8_decode r1
        | _ => []
        end
      else if (b0 <? 240)%N then
        match r0 with
        | b1 :: b2 :: r2 =>
            ((b0 mod 16) * 4096 + (b1 mod 64) * 64 + b2 mod 64)%N
            :: utf8_decode r2
        | _ => []
        end
      else
        match r0 with
        | b1 :: b2 :: b3 :: r3 =>
            ((b0 mod 8) * 262144 + (b1 mod 64) * 4096
             + (b2 mod 64) * 64 + b3 mod 64)%N :: utf8_decode r3
        | _ => []
        end
  end.

Fixpoint bytes_of (s : string) : list N :=
  match s with
  | EmptyString => []
  | String a r => N_of_ascii a :: bytes_of r
  end.

(** The [str] a source literal denotes. *)
Definition lit (s : string) : str := utf8_decode (bytes_of s).

(** [len(s)] *)
Definition len {A} (s : list A) : Z := Z.of_nat (length s).

(** [s * n]: [n] copies of [s], none when [n <= 0]. *)
Definition mul (s : str) (n : Z) : str :=
  mjoin (replicate (Z.to_nat n) s).

(** A slice bound, as CPython normalises it: a negative bound counts
    from the end, and the result is clamped to [0 .. len]. *)
Definition bound (n i : Z) : Z :=
  if i <? 0 then Z.max (i + n) 0 else Z.min i n.

(** [s[lo:hi]] *)
Definition slice (s : str) (lo hi : Z) : str :=
  let l := bound (len s) lo in
  let h := bound (len s) hi in
  take (Z.to_nat (h - l)) (drop (Z.to_nat l) s).

(** [s[:hi]] *)
Definition slice_to (s : str) (hi : Z) : str := slice s 0 hi.

(** [s.ljust(width)]: spaces are added on the right up to [width]; a
    string that is already as long is returned as it is. *)
Definition ljust (s : str) (width : Z) : str :=
  s ++ replicate (Z.to_nat (width - len s)) 32%N.

(** [l[i]] on a list: [None] stands for IndexError. *)
Definition getitem {A} (l : list A) (i : Z) : option A :=
  if i <? 0 then
    if i + len l <? 0 then None else l !! Z.to_nat (i + len l)
  else l !! Z.to_nat i.

(** [range(n)] *)
Definition range (n : Z) : list Z := Z.of_nat <$> seq 0 (Z.to_nat n).

End Py.

Import Py.

(** ** The constants of [main] *)

Definition ESC : str := [27%N].
Definition NL : str := [10%N].
Definition SP : str := [32%N].

Definition logo : list str :=
  [ lit "  ██████╗ ███████╗███╗   ███╗██╗███╗   ██╗ ";
    lit " ██╔════╝ ██╔════╝████╗ ████║██║████╗  ██║ ";
    lit " ██║  ███╗█████╗  ██╔████╔██║██║██╔██╗ ██║ ";
    lit " ██║   ██║██╔══╝  ██║╚██╔╝██║██║██║╚██╗██║ ";
    lit " ╚██████╔╝███████╗██║ ╚═╝ ██║██║██║ ╚████║ ";
    lit "  ╚═════╝ ╚══════╝╚═╝     ╚═╝╚═╝╚═╝  ╚═══╝ " ].

(** [logo_width = len(logo[0])], [logo_height = len(logo)] *)
Definition logo_width : Z :=
  match getitem logo 0 with Some l => len l | None => 0 end.
Definition logo_height : Z := len logo.

Definition scrolltext : str :=
  mul (lit "   *** GREETINGS FROM GEMINI! THIS IS A PYTHON ASCII DEMO "
       ++ lit "INSPIRED BY THE CLASSIC AMIGA SCENE OF THE LATE 80S AND EARLY 90S. "
       ++ lit "KEEP THE OLD SCHOOL SPIRIT ALIVE! ***") 3.

Definition colors : gmap string str :=
  list_to_map
    [ ("reset",   ESC ++ lit "[0m");
      ("bold",    ESC ++ lit "[1m");
      ("red",     ESC ++ lit "[91m");
      ("green",   ESC ++ lit "[92m");
      ("yellow",  ESC ++ lit "[93m");
      ("blue",    ESC ++ lit "[94m");
      ("magenta", ESC ++ lit "[95m");
      ("cyan",    ESC ++ lit "[96m") ].

(** [color_cycle = [colors['cyan'], colors['magenta'], ...]]: a key that
    is missing would raise KeyError during the set-up; none is. *)
Definition color_cycle_keys : list string :=
  ["cyan"; "magenta"; "yellow"; "green"; "red"].
Definition color_cycle : list str :=
  default [] (mapM (colors !!.) color_cycle_keys).

(** The escape sequences written around the loop, and the farewell. *)
Definition cursor_hide : str := ESC ++ lit "[?25l".
Definition cursor_show : str := ESC ++ lit "[?25h".
Definition cursor_home : str := ESC ++ lit "[H".
Definition style_reset : str := ESC ++ lit "[0m".
Definition farewell : str :=
  NL ++ NL ++ lit ">>> Demo finished. Stay creative! <<<" ++ NL.

(** ** Exceptions and results *)

Inductive exn :=
  | KeyboardInterrupt
  | OSError
  | IndexError
  | KeyError (key : string)
  | OtherError (name : string).

Global Instance exn_eq_dec : EqDecision exn.
Proof. solve_decision. Defined.

(** What a computation ends in: a value, a raised exception, or no end
    at all within what is observed: [Cut] when the script of replies
    stops (the program is still running there), [OutOfFuel] when the
    bound on the number of loop iterations is reached. *)
Inductive result (A : Type) :=
  | Val (a : A)
  | Exn (e : exn)
  | Cut
  | OutOfFuel.
Arguments Val {A} a.
Arguments Exn {A} e.
Arguments Cut {A}.
Arguments OutOfFuel {A}.

Global Instance result_ret : MRet result := fun A a => Val a.
Global Instance result_bind : MBind result := fun A B f r =>
  match r with
  | Val a => f a
  | Exn e => Exn e
  | Cut => Cut
  | OutOfFuel => OutOfFuel
  end.

(** A lookup that raises [e] when it finds nothing. *)
Definition or_raise {A} (e : exn) (o : option A) : result A :=
  match o with Some a => Val a | None => Exn e end.

(** [colors[key]] *)
Definition colors_at (key : string) : result str :=
  or_raise (KeyError key) (colors !! key).

(** ** One frame (the body of the loop, from the buffer to the scroller) *)

Definition top_padding (term_height : Z) : Z :=
  (term_height - logo_height - 2) / 2.

Definition left_padding_str (term_width : Z) : str :=
  mul SP ((term_width - logo_width) / 2).

Definition fill_lines (term_height : Z) : Z :=
  term_height - top_padding term_height - logo_height - 1.

Definition scroller_view (term_width scroll_pos : Z) : str :=
  slice (scrolltext ++ slice_to scrolltext term_width)
        scroll_pos (scroll_pos + term_width).

(** One round of [for i in range(logo_height)]. *)
Definition logo_line (left_padding_str current_color : str) (i : Z)
  : result str :=
  line ← or_raise IndexError (getitem logo i);
  reset ← colors_at "reset";
  mret (left_padding_str ++ current_color ++ line ++ reset ++ NL).

(** A [for] loop that appends to the buffer. *)
Fixpoint for_append (body : Z → result str) (buffer : str) (r : list Z)
  : result str :=
  match r with
  | [] => mret buffer
  | i :: r' => s ← body i; for_append body (buffer ++ s) r'
  end.

(** The buffer of one frame, statement by statement. *)
Definition frame (term_width term_height color_index scroll_pos : Z)
  : result str :=
  let buffer := [] in
  let buffer := buffer ++ cursor_home in
  let buffer :=
    if 0 <? top_padding term_height
    then buffer ++ mul NL (top_padding term_height) else buffer in
  current_color ← or_raise IndexError (getitem color_cycle color_index);
  buffer ← for_append (logo_line (left_padding_str term_width) current_color)
                      buffer (range logo_height);
  let buffer :=
    if 0 <? fill_lines term_height
    then buffer ++ mul NL (fill_lines term_height) else buffer in
  bold ← colors_at "bold";
  yellow ← colors_at "yellow";
  reset ← colors_at "reset";
  mret (buffer ++ bold ++ yellow
        ++ ljust (scroller_view term_width scroll_pos) term_width
        ++ reset).

(** ** The terminal and the monad of [main] *)

(** What the program does to the terminal, in the order it does it. *)
Inductive event :=
  | Write (s : str)      (* sys.stdout.write(s) *)
  | Flush                (* sys.stdout.flush() *)
  | Print (s : str)      (* print(s) *)
  | Sleep.               (* time.sleep(frame_delay) *)

Global Instance event_eq_dec : EqDecision event.
Proof. solve_decision. Defined.

(** What the environment answers to one call: it returns, it returns a
    terminal size, or it raises (Ctrl+C raises KeyboardInterrupt in
    whichever call is running). *)
Inductive reply :=
  | Done
  | Size (columns lines : Z)
  | Raises (e : exn).

(** The replies still to come, the calls made so far, and the two local
    variables the loop assigns. *)
Record world := World {
  script : list reply;
  out : list event;
  color_index : Z;
  scroll_pos : Z
}.

Definition M (A : Type) : Type := world → result A * world.

Definition ret {A} (a : A) : M A := λ w, (Val a, w).

Definition bind {A B} (m : M A) (k : A → M B) : M B := λ w,
  match m w with
  | (Val a, w') => k a w'
  | (Exn e, w') => (Exn e, w')
  | (Cut, w') => (Cut, w')
  | (OutOfFuel, w') => (OutOfFuel, w')
  end.

Declare Scope prog_scope.
Delimit Scope prog_scope with prog.
Notation "x <- m ;; k" := (bind m (λ x, k))
  (at level 100, m at next level, k at level 200, right associativity)
  : prog_scope.
Notation "m ;; k" := (bind m (λ _, k))
  (at level 100, k at level 200, right associativity) : prog_scope.

(** A computation without effects, run where it stands. *)
Definition pure {A} (r : result A) : M A := λ w, (r, w).

(** A call whose returned value the program does not use.  A reply that
    is no answer to the call ends the observation. *)
Definition call (ev : event) : M unit := λ w,
  match script w with
  | Done :: rest =>
      (Val (), World rest (out w ++ [ev]) (color_index w) (scroll_pos w))
  | Raises e :: rest =>
      (Exn e, World rest (out w) (color_index w) (scroll_pos w))
  | _ => (Cut, w)
  end.

Definition sys_stdout_write (s : str) : M unit := call (Write s).
Definition sys_stdout_flush : M unit := call Flush.
Definition print (s : str) : M unit := call (Print s).
Definition time_sleep : M unit := call Sleep.

(** [os.get_terminal_size()] *)
Definition os_get_terminal_size : M (Z * Z) := λ w,
  match script w with
  | Size columns lines :: rest =>
      (Val (columns, lines),
       World rest (out w) (color_index w) (scroll_pos w))
  | Raises e :: rest =>
      (Exn e, World rest (out w) (color_index w) (scroll_pos w))
  | _ => (Cut, w)
  end.

(** [try: body / except ...: handler]: the handler is chosen by the
    exception; [None] lets it pass. *)
Definition try_except {A} (body : M A) (handler : exn → option (M A))
  : M A := λ w,
  match body w with
  | (Exn e, w') =>
      match handler e with
      | Some h => h w'
      | None => (Exn e, w')
      end
  | rw => rw
  end.

(** [try: body / finally: final]: [final] runs after a value and after
    an exception, and what it raises replaces what [body] ended in. *)
Definition try_finally {A} (body : M A) (final : M unit) : M A := λ w,
  match body w with
  | (Cut, w') => (Cut, w')
  | (OutOfFuel, w') => (OutOfFuel, w')
  | (r, w') =>
      match final w' with
      | (Val _, w'') => (r, w'')
      | (Exn e, w'') => (Exn e, w'')
      | (Cut, w'') => (Cut, w'')
      | (OutOfFuel, w'') => (OutOfFuel, w'')
      end
  end.

(** [while True: body], for at most [fuel] rounds. *)
Fixpoint while_true (fuel : nat) (body : M unit) : M unit :=
  match fuel with
  | O => pure OutOfFuel
  | S fuel' => bind body (λ _, while_true fuel' body)
  end.

(** ** [main] *)

Local Open Scope prog_scope.

(** The inner [try]: the size of the terminal, or 80 x 24. *)
Definition terminal_size : M (Z * Z) :=
  try_except os_get_terminal_size
    (λ e, match e with
          | OSError => Some (ret (80, 24))
          | _ => None
          end).

(** The two assignments that end a round. *)
Definition advance : M unit := λ w,
  (Val (),
   World (script w) (out w)
         ((color_index w + 1) mod len color_cycle)
         ((scroll_pos w + 1) mod len scrolltext)).

(** The frame for the current values of the two variables. *)
Definition render (term_width term_height : Z) : M str := λ w,
  (frame term_width term_height (color_index w) (scroll_pos w), w).

(** One round of the loop. *)
Definition tick : M unit :=
  size <- terminal_size;;
  buffer <- render size.1 size.2;;
  sys_stdout_write buffer;;
  sys_stdout_flush;;
  advance;;
  time_sleep.

Definition try_body (fuel : nat) : M unit :=
  sys_stdout_write cursor_hide;;
  sys_stdout_flush;;
  while_true fuel tick.

Definition on_interrupt (e : exn) : option (M unit) :=
  match e with
  | KeyboardInterrupt => Some (print farewell)
  | _ => None
  end.

Definition cleanup : M unit :=
  sys_stdout_write cursor_show;;
  reset <- pure (colors_at "reset");;
  sys_stdout_write reset;;
  sys_stdout_flush.

Definition main (fuel : nat) : M unit :=
  try_finally (try_except (try_body fuel) on_interrupt) cleanup.

Local Close Scope prog_scope.

(** The world [main] starts in: [scroll_pos = 0], [color_index = 0],
    nothing written yet. *)
Definition start (replies : list reply) : world := World replies [] 0 0.

(** A round consumes a reply or ends the loop, so one more round than
    there are replies is fuel enough. *)
Definition run (replies : list reply) : result unit * world :=
  main (S (length replies)) (start replies).

(** ** Parts and observations of a frame *)

(** The text of one logo line as the loop appends it. *)
Definition logo_row (padding color line : str) : str :=
  padding ++ color ++ line ++ style_reset ++ NL.

(** The styled scroller that ends the buffer. *)
Definition scroller_line (term_width scroll_pos : Z) : str :=
  (ESC ++ lit "[1m") ++ (ESC ++ lit "[93m")
  ++ ljust (scroller_view term_width scroll_pos) term_width
  ++ style_reset.

(** The scroller window over any text:
    [(text + text[:width])[pos:pos + width]]. *)
Definition window (text : str) (width pos : Z) : str :=
  slice (text ++ slice_to text width) pos (pos + width).

(** The last [k] characters and the first [n] characters of the text. *)
Definition tail_chars (text : str) (k : Z) : str :=
  drop (Z.to_nat (len text - k)) text.
Definition head_chars (n : Z) (s : str) : str := take (Z.to_nat n) s.

(** How many times [c] stands at the start of [s]. *)
Fixpoint leading (c : N) (s : str) : nat :=
  match s with
  | x :: s' => if (x =? c)%N then S (leading c s') else O
  | [] => O
  end.

(** The blank lines between the home sequence and the logo. *)
Definition blank_lines_before_logo (buffer : str) : nat :=
  leading 10 (drop (length cursor_home) buffer).

(** The longest line of a list of lines. *)
Definition max_line_length (lines : list str) : Z :=
  foldr Z.max 0 (len <$> lines).

(** ** Scripts of replies *)

(** The replies of a round in which nothing goes wrong but, perhaps, the
    size query: the size (or OSError), then the write, the flush and the
    sleep return. *)
Definition size_reply (size : option (Z * Z)) : reply :=
  match size with
  | Some (columns, lines) => Size columns lines
  | None => Raises OSError
  end.

Definition round_replies (size : option (Z * Z)) : list reply :=
  [size_reply size; Done; Done; Done].

(** The size a round works with. *)
Definition viewport (size : option (Z * Z)) : Z * Z := default (80, 24) size.

(** The replies of a run that is observed for [length sizes] rounds: the
    two calls before the loop return, then the rounds. *)
Definition rounds (sizes : list (option (Z * Z))) : list reply :=
  Done :: Done :: mjoin (round_replies <$> sizes).

(** A run that is interrupted in the sleep of its first round, and the
    world its [try] body ends in. *)
Definition interrupted_run : list reply :=
  [Done; Done; Size 80 24; Done; Done; Raises KeyboardInterrupt;
   Done; Done; Done; Done].

Definition first_frame : str :=
  match frame 80 24 0 0 with Val buffer => buffer | _ => [] end.


(** ** Observations of the log *)

(** [m] adds only [allowed] calls to the log, never gives a reply back
    and does not use fuel; when it returns a value [a] then [post a]
    holds and at least [n] replies were consumed. *)
Definition behaves (allowed : event -> Prop) {A}
    (n : nat) (m : M A) (post : A -> Prop) : Prop :=
  forall w r w',
    m w = (r, w') ->
    (exists events, out w' = out w ++ events /\ Forall allowed events)
    /\ (length (script w') <= length (script w))%nat
    /\ r <> OutOfFuel
    /\ forall a, r = Val a ->
         post a /\ (length (script w') + n <= length (script w))%nat.

(** A call the loop makes: the write of a frame, a flush or a sleep. *)
Definition loop_event (ev : event) : Prop :=
  match ev with
  | Write s =>
      exists term_width term_height ci sp,
        frame term_width term_height ci sp = Val s
  | Flush => True
  | Sleep => True
  | Print _ => False
  end.

(** The log when the [try] body ends: nothing (the first write raised),
    the hide sequence alone (the flush raised), or the hide sequence, the
    flush and calls of the loop. *)
Definition body_trace (trace : list event) : Prop :=
  trace = []
  \/ trace = [Write cursor_hide]
  \/ exists events,
       trace = Write cursor_hide :: Flush :: events
       /\ Forall loop_event events.



(** The calls that answer the exception which ends the [try] body: the
    print (after KeyboardInterrupt only), then the three calls of the
    [finally] block. *)
Definition closing_calls (e : exn) : list event :=
  (match e with KeyboardInterrupt => [Print farewell] | _ => [] end)
  ++ [Write cursor_show; Write style_reset; Flush].






(** ** Further observations *)

(** The text of a frame, when it is built. *)
Definition frame_text (term_width term_height ci sp : Z) : str :=
  match frame term_width term_height ci sp with
  | Val buffer => buffer
  | _ => []
  end.

(** What round number [i] (counted from 0) adds to the log when its size
    query is answered by [size]. *)
Definition round_log (i : nat) (size : option (Z * Z)) : list event :=
  [Write (frame_text (viewport size).1 (viewport size).2
                     (Z.of_nat i mod len color_cycle)
                     (Z.of_nat i mod len scrolltext));
   Flush; Sleep].

Fixpoint rounds_log (i : nat) (sizes : list (option (Z * Z)))
  : list event :=
  match sizes with
  | [] => []
  | size :: sizes' => round_log i size ++ rounds_log (S i) sizes'
  end.

(** The number of newline characters of a text. *)
Definition newlines (s : str) : nat :=
  length (filter (fun c => c = 10%N) s).

(** [m] keeps the palette index within the palette, consumes replies
    from the front of the script only, and raises nothing but what a
    reply raised. *)
Definition faithful {A} (m : M A) : Prop :=
  forall w r w',
    0 <= color_index w < len color_cycle ->
    m w = (r, w') ->
    0 <= color_index w' < len color_cycle
    /\ (exists used, script w = used ++ script w')
    /\ forall e, r = Exn e -> Raises e ∈ script w.

Arguments frame : simpl never.

(** ** Values of the constants *)

Example color_cycle_val :
  mapM (colors !!.) color_cycle_keys
  = Some [ESC ++ lit "[96m"; ESC ++ lit "[95m"; ESC ++ lit "[93m";
          ESC ++ lit "[92m"; ESC ++ lit "[91m"].
Proof. reflexivity. Qed.

Example logo_width_val : logo_width = 43.
Proof. reflexivity. Qed.

Example scrolltext_len : len scrolltext = 486.
Proof. reflexivity. Qed.

Example colors_reset : colors !! "reset" = Some (ESC ++ lit "[0m").
Proof. reflexivity. Qed.

Example frame_runs : exists b, frame 80 24 0 0 = Val b /\ len b = 539.
Proof. eexists. split; [vm_compute; reflexivity | vm_compute; reflexivity]. Qed.

(** ** Python operations: basic facts *)

Lemma Val_inj {A} (a b : A) : Val a = Val b -> a = b.
Proof. congruence. Qed.

Lemma len_app {A} (s t : list A) : len (s ++ t) = len s + len t.
Proof. unfold len. rewrite length_app. lia. Qed.

Lemma mul_single (c : N) (n : Z) : mul [c] n = replicate (Z.to_nat n) c.
Proof.
  unfold mul. induction (Z.to_nat n) as [|k IH]; simpl; [done|].
  by rewrite IH.
Qed.

Lemma mul_nonpos (s : str) (n : Z) : n <= 0 -> mul s n = [].
Proof. intros Hn. unfold mul. by replace (Z.to_nat n) with 0%nat by lia. Qed.

Lemma getitem_nat {A} (l : list A) (i : nat) :
  getitem l (Z.of_nat i) = l !! i.
Proof.
  unfold getitem. destruct (Z.ltb_spec (Z.of_nat i) 0); [lia|].
  by rewrite Nat2Z.id.
Qed.

(** ** The shape of a frame *)

Lemma logo_line_at padding color (i : nat) line :
  logo !! i = Some line ->
  logo_line padding color (Z.of_nat i) = Val (logo_row padding color line).
Proof.
  intros Hi. unfold logo_line. rewrite getitem_nat, Hi. reflexivity.
Qed.

Lemma for_append_rows padding color (rows : list str) :
  forall (k : nat) (buffer : str),
    (forall j line, rows !! j = Some line -> logo !! (k + j)%nat = Some line) ->
    for_append (logo_line padding color) buffer
               (Z.of_nat <$> seq k (length rows))
    = Val (buffer ++ mjoin (logo_row padding color <$> rows)).
Proof.
  induction rows as [|row rows IH]; intros k buffer Hrows; simpl.
  - by rewrite app_nil_r.
  - rewrite (logo_line_at padding color k row).
    + simpl. rewrite IH.
      * by rewrite <- app_assoc.
      * intros j line Hj. replace (S k + j)%nat with (k + S j)%nat by lia.
        by apply Hrows.
    + replace k with (k + 0)%nat by lia. by apply Hrows.
Qed.

Lemma for_append_logo padding color (buffer : str) :
  for_append (logo_line padding color) buffer (range logo_height)
  = Val (buffer ++ mjoin (logo_row padding color <$> logo)).
Proof.
  unfold range, logo_height, len. rewrite Nat2Z.id.
  by apply for_append_rows.
Qed.

(** Whatever the size of the terminal, a frame is the home sequence, the
    top padding, the six logo rows, the fill lines and the scroller. *)
Lemma frame_shape (term_width term_height color_index scroll_pos : Z) color :
  getitem color_cycle color_index = Some color ->
  frame term_width term_height color_index scroll_pos
  = Val (cursor_home
         ++ mul NL (top_padding term_height)
         ++ mjoin (logo_row (left_padding_str term_width) color <$> logo)
         ++ mul NL (fill_lines term_height)
         ++ scroller_line term_width scroll_pos).
Proof.
  intros Hc. unfold frame. rewrite Hc. simpl or_raise.
  cbv beta iota delta [mbind result_bind].
  rewrite for_append_logo.
  replace (colors_at "bold") with (Val (ESC ++ lit "[1m")) by reflexivity.
  replace (colors_at "yellow") with (Val (ESC ++ lit "[93m")) by reflexivity.
  replace (colors_at "reset") with (Val style_reset) by reflexivity.
  cbv beta iota delta [mret result_ret]. f_equal.
  assert (Hpad : forall (b : str) n,
             (if 0 <? n then b ++ mul NL n else b) = b ++ mul NL n).
  { intros b n. destruct (Z.ltb_spec 0 n); [done|].
    by rewrite mul_nonpos, app_nil_r by lia. }
  rewrite !Hpad. unfold scroller_line.
  change ([] ++ cursor_home) with cursor_home.
  rewrite <- !app_assoc. reflexivity.
Qed.

(** ** Slices *)

Lemma bound_width (n i w : Z) : 0 <= w -> bound n (i + w) - bound n i <= w.
Proof.
  intros Hw. unfold bound.
  destruct (Z.ltb_spec (i + w) 0), (Z.ltb_spec i 0); lia.
Qed.

Lemma len_slice_le (s : str) (lo w : Z) :
  0 <= w -> len (slice s lo (lo + w)) <= w.
Proof.
  intros Hw. unfold slice, len. rewrite length_take.
  pose proof (bound_width (Z.of_nat (length s)) lo w Hw). lia.
Qed.

(** Between two bounds that are not negative a slice is [take] of
    [drop]. *)
Lemma slice_nat (s : str) (lo hi : Z) :
  0 <= lo <= hi ->
  slice s lo hi = take (Z.to_nat (hi - lo)) (drop (Z.to_nat lo) s).
Proof.
  intros [Hlo Hhi]. unfold slice, bound, len.
  destruct (Z.ltb_spec lo 0), (Z.ltb_spec hi 0); try lia.
  destruct (Z.le_gt_cases (Z.of_nat (length s)) lo) as [Hge|Hlt].
  - rewrite !drop_ge by lia. by rewrite !take_nil.
  - replace (Z.to_nat (lo `min` Z.of_nat (length s))) with (Z.to_nat lo)
      by lia.
    destruct (Z.le_gt_cases hi (Z.of_nat (length s))).
    + do 2 f_equal. lia.
    + rewrite !take_ge; [done| |]; rewrite length_drop; lia.
Qed.

Lemma slice_to_nat (s : str) (hi : Z) :
  0 <= hi -> slice_to s hi = take (Z.to_nat hi) s.
Proof.
  intros Hhi. unfold slice_to. rewrite slice_nat by lia.
  rewrite drop_0. f_equal. lia.
Qed.

(** ** The scroller window over any text *)

Section Window.

Variable text : str.

Lemma window_nat (width pos : Z) :
  0 <= width -> 0 <= pos ->
  window text width pos
  = take (Z.to_nat width)
         (drop (Z.to_nat pos) (text ++ take (Z.to_nat width) text)).
Proof.
  intros Hw Hp. unfold window. rewrite slice_to_nat, slice_nat by lia.
  do 2 f_equal. lia.
Qed.

(** Character [j] of the window is the circular read of the text, as
    long as the doubled text reaches that far. *)
Lemma window_lookup (width pos : Z) (j : nat) :
  0 <= pos < len text ->
  Z.of_nat j < width ->
  width <= len text \/ pos + Z.of_nat j < 2 * len text ->
  window text width pos !! j
  = text !! Z.to_nat ((pos + Z.of_nat j) mod len text)
  /\ is_Some (window text width pos !! j).
Proof.
  unfold len. intros Hp Hj Hreach.
  rewrite window_nat by lia.
  rewrite lookup_take_lt by lia. rewrite lookup_drop.
  destruct (Z.lt_ge_cases (pos + Z.of_nat j) (Z.of_nat (length text)))
    as [Hin|Hout].
  - rewrite lookup_app_l by lia.
    rewrite Z.mod_small by lia.
    replace (Z.to_nat (pos + Z.of_nat j)) with (Z.to_nat pos + j)%nat
      by lia.
    split; [done|]. apply lookup_lt_is_Some. lia.
  - rewrite lookup_app_r by lia.
    rewrite lookup_take_lt by lia.
    replace ((pos + Z.of_nat j) mod Z.of_nat (length text))
      with (pos + Z.of_nat j - Z.of_nat (length text)).
    + replace (Z.to_nat (pos + Z.of_nat j - Z.of_nat (length text)))
        with (Z.to_nat pos + j - length text)%nat by lia.
      split; [done|]. apply lookup_lt_is_Some. lia.
    + apply Z.mod_unique with (q := 1); lia.
Qed.

(** Past the doubled text the window has no characters. *)
Lemma window_lookup_past (width pos : Z) (j : nat) :
  0 <= pos -> 0 <= width ->
  2 * len text <= pos + Z.of_nat j ->
  window text width pos !! j = None.
Proof.
  unfold len. intros Hp Hw Hj. rewrite window_nat by lia.
  apply lookup_ge_None. rewrite length_take, length_drop, length_app.
  rewrite length_take. lia.
Qed.

Lemma window_tail_head (k width : Z) :
  0 < k <= len text -> k <= width ->
  window text width (len text - k) = tail_chars text k ++ head_chars (width - k) text.
Proof.
  unfold len. intros Hk Hw. rewrite window_nat by lia.
  unfold tail_chars, head_chars, len.
  rewrite drop_app_le by lia.
  rewrite take_app, length_drop, take_take.
  rewrite (take_ge (drop _ _)) by (rewrite length_drop; lia).
  do 2 f_equal. lia.
Qed.

Lemma window_tail_only (k width : Z) :
  0 < k <= len text -> 0 <= width <= k ->
  window text width (len text - k) = head_chars width (tail_chars text k).
Proof.
  unfold len. intros Hk Hw. rewrite window_nat by lia.
  unfold tail_chars, head_chars, len.
  rewrite drop_app_le by lia.
  rewrite take_app_le by (rewrite length_drop; lia). done.
Qed.

End Window.

Lemma scroller_view_window (term_width scroll_pos : Z) :
  scroller_view term_width scroll_pos = window scrolltext term_width scroll_pos.
Proof. reflexivity. Qed.

(** ** Observing a frame *)

Lemma leading_replicate (c : N) (n : nat) (rest : str) :
  head rest <> Some c -> leading c (replicate n c ++ rest) = n.
Proof.
  intros Hrest. induction n as [|n IH]; simpl.
  - destruct rest as [|x rest]; [done|]. simpl in *.
    destruct (N.eqb_spec x c); [congruence|done].
  - by rewrite N.eqb_refl, IH.
Qed.

Lemma color_cycle_at (color_index : Z) :
  0 <= color_index < len color_cycle ->
  exists color,
    getitem color_cycle color_index = Some color /\ head color = Some 27%N.
Proof.
  change (len color_cycle) with 5. intros Hci.
  assert (Hcases : color_index = 0 \/ color_index = 1 \/ color_index = 2
                   \/ color_index = 3 \/ color_index = 4) by lia.
  destruct Hcases as [->|[->|[->|[->| ->]]]]; eexists; split; reflexivity.
Qed.

Lemma left_padding_spaces (term_width : Z) :
  left_padding_str term_width
  = replicate (Z.to_nat ((term_width - logo_width) / 2)) 32%N.
Proof. unfold left_padding_str, SP. apply mul_single. Qed.

Lemma logo_row_leading (term_width : Z) (color line : str) :
  head color = Some 27%N ->
  leading 32 (logo_row (left_padding_str term_width) color line)
  = Z.to_nat ((term_width - logo_width) / 2).
Proof.
  intros Hc. unfold logo_row. rewrite left_padding_spaces.
  apply leading_replicate.
  destruct color as [|x color]; simpl in *; congruence.
Qed.

Lemma logo_rows_head (padding color tail : str) :
  head (padding ++ color) <> Some 10%N ->
  head (mjoin (logo_row padding color <$> logo) ++ tail) <> Some 10%N.
Proof.
  intros Hhead. unfold logo. rewrite fmap_cons. simpl mjoin.
  unfold logo_row at 1. rewrite <- !app_assoc.
  destruct padding as [|x padding]; [|exact Hhead].
  destruct color as [|y color]; [|exact Hhead].
  simpl. unfold lit. simpl. discriminate.
Qed.

(** ** Centering the logo *)

(** C4: for every viewport height the frame is built without an error
    and the number of blank lines between the home sequence and the logo
    is floor((H - logo_height - 2) / 2) when that is positive and zero
    otherwise. *)
Theorem top_padding_blank_lines
    (term_width term_height color_index scroll_pos : Z) :
  0 <= color_index < len color_cycle ->
  exists color buffer,
    frame term_width term_height color_index scroll_pos = Val buffer
    /\ buffer
       = cursor_home
         ++ replicate (blank_lines_before_logo buffer) 10%N
         ++ mjoin (logo_row (left_padding_str term_width) color <$> logo)
         ++ mul NL (fill_lines term_height)
         ++ scroller_line term_width scroll_pos
    /\ Z.of_nat (blank_lines_before_logo buffer)
       = (if 0 <? (term_height - logo_height - 2) / 2
          then (term_height - logo_height - 2) / 2 else 0).
Proof.
  intros Hci. destruct (color_cycle_at color_index Hci) as (color & Hc & Hesc).
  exists color. eexists. split; [by apply frame_shape|].
  assert (Hblank :
    blank_lines_before_logo
      (cursor_home
       ++ mul NL (top_padding term_height)
       ++ mjoin (logo_row (left_padding_str term_width) color <$> logo)
       ++ mul NL (fill_lines term_height)
       ++ scroller_line term_width scroll_pos)
    = Z.to_nat (top_padding term_height)).
  { unfold blank_lines_before_logo. rewrite drop_app_length.
    unfold NL. rewrite mul_single. apply leading_replicate.
    apply logo_rows_head. rewrite left_padding_spaces.
    destruct (Z.to_nat _); simpl; [|discriminate].
    destruct color; simpl in *; congruence. }
  rewrite Hblank. split.
  - unfold NL at 1. by rewrite mul_single.
  - unfold top_padding. destruct (Z.ltb_spec 0 ((term_height - logo_height - 2) / 2)); lia.
Qed.

Lemma top_padding_blank_lines_witness :
  exists color buffer,
    frame 80 10 0 0 = Val buffer
    /\ buffer
       = cursor_home
         ++ replicate (blank_lines_before_logo buffer) 10%N
         ++ mjoin (logo_row (left_padding_str 80) color <$> logo)
         ++ mul NL (fill_lines 10)
         ++ scroller_line 80 0
    /\ Z.of_nat (blank_lines_before_logo buffer)
       = (if 0 <? (10 - logo_height - 2) / 2
          then (10 - logo_height - 2) / 2 else 0).
Proof. apply (top_padding_blank_lines 80 10 0 0). change (len color_cycle) with 5. lia. Defined.

(** C5, as the spec has it, read on the padding string: its length would
    be floor((W - logo_width) / 2) for every W.  At W = 0 the string is
    empty and the quotient is -22. *)
Lemma left_padding_not_negative :
  ~ (forall term_width : Z,
       len (left_padding_str term_width) = (term_width - logo_width) / 2).
Proof. intros Hall. specialize (Hall 0). vm_compute in Hall. discriminate. Qed.

(** C5, amended: every logo line of the frame starts with exactly
    max(0, floor((W - logo_width) / 2)) spaces, the same padding string
    for every line, followed by the colour sequence. *)
Theorem left_padding_every_line
    (term_width term_height color_index scroll_pos : Z) :
  0 <= color_index < len color_cycle ->
  exists color,
    frame term_width term_height color_index scroll_pos
    = Val (cursor_home
           ++ mul NL (top_padding term_height)
           ++ mjoin (logo_row (left_padding_str term_width) color <$> logo)
           ++ mul NL (fill_lines term_height)
           ++ scroller_line term_width scroll_pos)
    /\ forall line,
         line ∈ logo ->
         Z.of_nat (leading 32 (logo_row (left_padding_str term_width)
                                        color line))
         = Z.max 0 ((term_width - logo_width) / 2).
Proof.
  intros Hci. destruct (color_cycle_at color_index Hci) as (color & Hc & Hesc).
  exists color. split; [by apply frame_shape|].
  intros line _. rewrite logo_row_leading by done. lia.
Qed.

Lemma left_padding_every_line_witness :
  exists color,
    frame 20 24 3 7
    = Val (cursor_home
           ++ mul NL (top_padding 24)
           ++ mjoin (logo_row (left_padding_str 20) color <$> logo)
           ++ mul NL (fill_lines 24)
           ++ scroller_line 20 7)
    /\ forall line,
         line ∈ logo ->
         Z.of_nat (leading 32 (logo_row (left_padding_str 20) color line))
         = Z.max 0 ((20 - logo_width) / 2).
Proof. apply (left_padding_every_line 20 24 3 7). change (len color_cycle) with 5. lia. Defined.

(** C10: when the terminal is narrower than the logo the padding string
    is empty, the frame is still built, and every logo line starts with
    the colour sequence: no leading space. *)
Theorem narrow_terminal_no_padding
    (term_width term_height color_index scroll_pos : Z) :
  term_width < logo_width ->
  0 <= color_index < len color_cycle ->
  left_padding_str term_width = []
  /\ exists color,
       frame term_width term_height color_index scroll_pos
       = Val (cursor_home
              ++ mul NL (top_padding term_height)
              ++ mjoin ((fun line => color ++ line ++ style_reset ++ NL)
                        <$> logo)
              ++ mul NL (fill_lines term_height)
              ++ scroller_line term_width scroll_pos)
       /\ head color = Some 27%N.
Proof.
  intros Hw Hci.
  assert (Hpad : left_padding_str term_width = []).
  { unfold left_padding_str. apply mul_nonpos.
    assert ((term_width - logo_width) / 2 < 0); [|lia].
    apply Z.div_lt_upper_bound; lia. }
  split; [exact Hpad|].
  destruct (color_cycle_at color_index Hci) as (color & Hc & Hesc).
  exists color. split; [|exact Hesc].
  rewrite (frame_shape _ _ _ _ color Hc), Hpad. reflexivity.
Qed.

Lemma narrow_terminal_no_padding_witness :
  left_padding_str 42 = []
  /\ exists color,
       frame 42 24 0 0
       = Val (cursor_home
              ++ mul NL (top_padding 24)
              ++ mjoin ((fun line => color ++ line ++ style_reset ++ NL)
                        <$> logo)
              ++ mul NL (fill_lines 24)
              ++ scroller_line 42 0)
       /\ head color = Some 27%N.
Proof.
  apply (narrow_terminal_no_padding 42 24 0 0).
  - vm_compute. reflexivity.
  - change (len color_cycle) with 5. lia.
Defined.

(** C7, as the spec has it: the logo would be 44 wide. *)
Lemma logo_width_not_44 :
  ~ (logo_height = 6 /\ logo_width = 44
     /\ top_padding 24 = 8 /\ fill_lines 24 = 9).
Proof. intros (_ & Hw & _). vm_compute in Hw. discriminate. Qed.

(** C7, amended: the logo is 6 lines high and 43 wide (the length of its
    first line, which is also the length of its longest line); in an
    80 x 24 terminal the top padding is 8 and the fill is 9, and the frame
    has these 8 and 9 blank lines around the logo rows. *)
Theorem logo_fixture :
  logo_height = 6
  /\ logo_width = 43
  /\ max_line_length logo = 43
  /\ top_padding 24 = 8
  /\ fill_lines 24 = 9
  /\ frame 80 24 0 0
     = Val (cursor_home
            ++ replicate 8 10%N
            ++ mjoin (logo_row (left_padding_str 80) (ESC ++ lit "[96m")
                      <$> logo)
            ++ replicate 9 10%N
            ++ scroller_line 80 0).
Proof.
  split; [reflexivity|]. split; [reflexivity|]. split; [reflexivity|].
  split; [reflexivity|]. split; [reflexivity|].
  apply (frame_shape 80 24 0 0 (ESC ++ lit "[96m")). reflexivity.
Qed.

(** ** The scroller *)

(** C2, as the spec has it: for every width, character [j] of the view
    is the circular read.  At offset 485 and width 488 the doubled text
    ends at 972, so the view has 487 characters and none at [j = 487]. *)
Lemma scroller_view_wide_terminal :
  ~ (forall (offset term_width : Z) (j : nat),
       0 <= offset < len scrolltext ->
       Z.of_nat j < term_width ->
       scroller_view term_width offset !! j
       = scrolltext !! Z.to_nat ((offset + Z.of_nat j) mod len scrolltext)).
Proof.
  intros Hall. specialize (Hall 485 488 487%nat).
  assert (Hview : scroller_view 488 485 !! 487%nat = None)
    by (vm_compute; reflexivity).
  rewrite Hview in Hall.
  assert (Hread : scrolltext !! Z.to_nat ((485 + Z.of_nat 487) mod len scrolltext)
                  = Some 32%N) by (vm_compute; reflexivity).
  rewrite Hread in Hall.
  assert (Hno : None = Some 32%N); [|discriminate].
  apply Hall; vm_compute; [split; [discriminate|reflexivity]|reflexivity].
Qed.

(** C2, amended: for every offset in [0, length) and every width up to
    the length of the text, character [j] of the view exists and is
    character ((offset + j) mod length) of the text, for every j < W; for
    a wider terminal this holds for the [j] with offset + j < 2 * length. *)
Theorem scroller_view_circular (offset term_width : Z) (j : nat) :
  0 <= offset < len scrolltext ->
  Z.of_nat j < term_width ->
  term_width <= len scrolltext \/ offset + Z.of_nat j < 2 * len scrolltext ->
  scroller_view term_width offset !! j
  = scrolltext !! Z.to_nat ((offset + Z.of_nat j) mod len scrolltext)
  /\ is_Some (scroller_view term_width offset !! j).
Proof.
  intros Ho Hj Hreach. rewrite scroller_view_window. by apply window_lookup.
Qed.

Lemma scroller_view_circular_witness :
  scroller_view 80 450 !! 60%nat
  = scrolltext !! Z.to_nat ((450 + Z.of_nat 60) mod len scrolltext)
  /\ is_Some (scroller_view 80 450 !! 60%nat).
Proof.
  apply (scroller_view_circular 450 80 60).
  - change (len scrolltext) with 486. lia.
  - lia.
  - left. change (len scrolltext) with 486. lia.
Defined.

(** Past the doubled text a wide view has no character at all. *)
Lemma scroller_view_past (offset term_width : Z) (j : nat) :
  0 <= offset -> 0 <= term_width ->
  2 * len scrolltext <= offset + Z.of_nat j ->
  scroller_view term_width offset !! j = None.
Proof.
  intros Ho Hw Hj. rewrite scroller_view_window.
  by apply window_lookup_past.
Qed.

(** C3: for every width W >= 0 the view has at most W characters and the
    padded view has exactly W; it is what stands between the bold-yellow
    sequences and the reset at the end of every frame. *)
Theorem scroller_line_width
    (term_width term_height color_index scroll_pos : Z) (buffer : str) :
  0 <= term_width ->
  frame term_width term_height color_index scroll_pos = Val buffer ->
  exists prefix padded,
    buffer = prefix ++ (ESC ++ lit "[1m") ++ (ESC ++ lit "[93m")
             ++ padded ++ style_reset
    /\ padded = ljust (scroller_view term_width scroll_pos) term_width
    /\ len (scroller_view term_width scroll_pos) <= term_width
    /\ len padded = term_width.
Proof.
  intros Hw Hframe.
  assert (Hview : len (scroller_view term_width scroll_pos) <= term_width)
    by (by apply len_slice_le).
  destruct (getitem color_cycle color_index) as [color|] eqn:Hc.
  - rewrite (frame_shape _ _ _ _ color Hc) in Hframe.
    apply Val_inj in Hframe. subst buffer.
    exists (cursor_home
            ++ mul NL (top_padding term_height)
            ++ mjoin (logo_row (left_padding_str term_width) color <$> logo)
            ++ mul NL (fill_lines term_height)).
    eexists. split; [|split; [reflexivity|split; [exact Hview|]]].
    + unfold scroller_line. by rewrite <- !app_assoc.
    + unfold ljust. rewrite len_app. unfold len at 2.
      rewrite length_replicate. lia.
  - unfold frame in Hframe. rewrite Hc in Hframe. discriminate.
Qed.

Lemma scroller_line_width_witness :
  exists prefix padded,
    first_frame = prefix ++ (ESC ++ lit "[1m") ++ (ESC ++ lit "[93m")
                  ++ padded ++ style_reset
    /\ padded = ljust (scroller_view 80 0) 80
    /\ len (scroller_view 80 0) <= 80
    /\ len padded = 80.
Proof.
  apply (scroller_line_width 80 24 0 0 first_frame).
  - lia.
  - vm_compute. reflexivity.
Defined.

(** C6, as the spec has it: with W <= k the window would be the last k
    characters followed by the first W - k.  At k = 2, W = 1 the window
    has one character and the last two characters are two. *)
Lemma window_not_whole_tail :
  ~ (forall k term_width : Z,
       0 < k <= len scrolltext -> term_width <= k ->
       scroller_view term_width (len scrolltext - k)
       = tail_chars scrolltext k
         ++ head_chars (term_width - k) scrolltext).
Proof.
  intros Hall. specialize (Hall 2 1).
  assert (Hlen : len (scroller_view 1 (len scrolltext - 2)) = 1)
    by (vm_compute; reflexivity).
  rewrite Hall in Hlen.
  - vm_compute in Hlen. discriminate.
  - change (len scrolltext) with 486. lia.
  - lia.
Qed.

(** C6, amended: for every k in (0, length] and every width W >= k,
    with offset = length - k, the window is the last k characters of the
    text followed by its first W - k characters. *)
Theorem window_tail_then_head (k term_width : Z) :
  0 < k <= len scrolltext ->
  k <= term_width ->
  scroller_view term_width (len scrolltext - k)
  = tail_chars scrolltext k ++ head_chars (term_width - k) scrolltext.
Proof.
  intros Hk Hw. rewrite scroller_view_window. by apply window_tail_head.
Qed.

Lemma window_tail_then_head_witness :
  scroller_view 80 (len scrolltext - 5)
  = tail_chars scrolltext 5 ++ head_chars (80 - 5) scrolltext.
Proof.
  apply (window_tail_then_head 5 80).
  - change (len scrolltext) with 486. lia.
  - lia.
Defined.

(** With a width 0 <= W <= k the window is the first W of the last k
    characters. *)
Lemma window_within_tail (k term_width : Z) :
  0 < k <= len scrolltext ->
  0 <= term_width <= k ->
  scroller_view term_width (len scrolltext - k)
  = head_chars term_width (tail_chars scrolltext k).
Proof.
  intros Hk Hw. rewrite scroller_view_window. by apply window_tail_only.
Qed.

(** ** One round of the loop *)

Lemma frame_total (term_width term_height color_index scroll_pos : Z) :
  0 <= color_index < len color_cycle ->
  exists buffer,
    frame term_width term_height color_index scroll_pos = Val buffer.
Proof.
  intros Hci. destruct (color_cycle_at color_index Hci) as (color & Hc & _).
  eexists. by apply frame_shape.
Qed.

Lemma terminal_size_reply (size : option (Z * Z)) rest trace ci sp :
  terminal_size (World (size_reply size :: rest) trace ci sp)
  = (Val (viewport size), World rest trace ci sp).
Proof. destruct size as [[columns lines]|]; reflexivity. Qed.

Lemma tick_round (size : option (Z * Z)) rest trace ci sp :
  0 <= ci < len color_cycle ->
  exists buffer,
    frame (viewport size).1 (viewport size).2 ci sp = Val buffer
    /\ tick (World (round_replies size ++ rest) trace ci sp)
       = (Val (),
          World rest (trace ++ [Write buffer; Flush; Sleep])
                ((ci + 1) mod len color_cycle)
                ((sp + 1) mod len scrolltext)).
Proof.
  intros Hci.
  destruct (frame_total (viewport size).1 (viewport size).2 ci sp Hci)
    as [buffer Hframe].
  exists buffer. split; [exact Hframe|].
  unfold tick, round_replies, bind at 1. simpl app.
  rewrite terminal_size_reply.
  unfold bind at 1, render. simpl color_index. simpl scroll_pos.
  rewrite Hframe.
  unfold bind, sys_stdout_write, sys_stdout_flush, advance, time_sleep, call.
  simpl. by rewrite <- !app_assoc.
Qed.

(** ** The counters *)

Lemma color_index_step (ci : Z) :
  0 <= (ci + 1) mod len color_cycle < len color_cycle.
Proof. change (len color_cycle) with 5. apply Z.mod_pos_bound. lia. Qed.

Lemma scroll_pos_step (sp : Z) :
  0 <= (sp + 1) mod len scrolltext < len scrolltext.
Proof. change (len scrolltext) with 486. apply Z.mod_pos_bound. lia. Qed.

Lemma while_true_S (fuel : nat) (body : M unit) (w : world) :
  while_true (S fuel) body w
  = match body w with
    | (Val _, w') => while_true fuel body w'
    | (Exn e, w') => (Exn e, w')
    | (Cut, w') => (Cut, w')
    | (OutOfFuel, w') => (OutOfFuel, w')
    end.
Proof. reflexivity. Qed.

(** The loop over the replies of [sizes]: every round writes a frame,
    both counters move by one, and the loop is still running when the
    replies end. *)
Lemma while_true_rounds (sizes : list (option (Z * Z))) :
  forall (fuel : nat) trace ci sp,
    (length sizes < fuel)%nat ->
    0 <= ci < len color_cycle ->
    0 <= sp < len scrolltext ->
    exists events,
      while_true fuel tick
        (World (mjoin (round_replies <$> sizes)) trace ci sp)
      = (Cut,
         World [] (trace ++ events)
               ((ci + len sizes) mod len color_cycle)
               ((sp + len sizes) mod len scrolltext)).
Proof.
  induction sizes as [|size sizes IH]; intros fuel trace ci sp Hfuel Hci Hsp.
  - exists []. destruct fuel as [|fuel]; [simpl in Hfuel; lia|].
    change (len []) with 0. rewrite !Z.add_0_r, !Z.mod_small, app_nil_r by done.
    reflexivity.
  - destruct fuel as [|fuel]; [simpl in Hfuel; lia|].
    destruct (tick_round size (mjoin (round_replies <$> sizes)) trace ci sp Hci)
      as (buffer & _ & Htick).
    destruct (IH fuel (trace ++ [Write buffer; Flush; Sleep])
                 ((ci + 1) mod len color_cycle)
                 ((sp + 1) mod len scrolltext))
      as (events & Hloop);
      [simpl in Hfuel; lia|apply color_index_step|apply scroll_pos_step|].
    exists ([Write buffer; Flush; Sleep] ++ events).
    replace (mjoin (round_replies <$> size :: sizes))
      with (round_replies size ++ mjoin (round_replies <$> sizes))
      by reflexivity.
    rewrite while_true_S, Htick, Hloop.
    replace (len (size :: sizes)) with (1 + len sizes)
      by (unfold len; simpl length; lia).
    rewrite !Zplus_mod_idemp_l, !Z.add_assoc, <- app_assoc.
    reflexivity.
Qed.

Lemma try_body_rounds (fuel : nat) (replies : list reply) :
  try_body fuel (start (Done :: Done :: replies))
  = while_true fuel tick (World replies [Write cursor_hide; Flush] 0 0).
Proof. reflexivity. Qed.

Lemma main_cut (fuel : nat) (w w' : world) :
  try_body fuel w = (Cut, w') -> main fuel w = (Cut, w').
Proof.
  intros Hbody. unfold main, try_finally, try_except. by rewrite Hbody.
Qed.

Lemma length_rounds (sizes : list (option (Z * Z))) :
  length (mjoin (round_replies <$> sizes)) = (4 * length sizes)%nat.
Proof.
  induction sizes as [|size sizes IH]; [reflexivity|].
  replace (mjoin (round_replies <$> size :: sizes))
    with (round_replies size ++ mjoin (round_replies <$> sizes))
    by reflexivity.
  rewrite length_app, IH. simpl. lia.
Qed.

Lemma run_rounds (sizes : list (option (Z * Z))) :
  exists trace,
    run (rounds sizes)
    = (Cut,
       World [] trace
             (len sizes mod len color_cycle)
             (len sizes mod len scrolltext)).
Proof.
  destruct (while_true_rounds sizes (S (length (rounds sizes)))
              [Write cursor_hide; Flush] 0 0) as (events & Hloop).
  - unfold rounds. simpl length. rewrite length_rounds. lia.
  - change (len color_cycle) with 5. lia.
  - change (len scrolltext) with 486. lia.
  - eexists. unfold run. apply main_cut.
    unfold rounds at 2. rewrite try_body_rounds. exact Hloop.
Qed.

(** C1: observed for N rounds from [scroll_pos = 0], [color_index = 0],
    whatever sizes the terminal reports (or fails to report), the loop is
    still running and the scroll offset is N mod 486, the palette index
    N mod 5; both lie within their modulus, and one more round moves
    each by exactly one, modulo its modulus. *)
Theorem counters_after_rounds (sizes : list (option (Z * Z))) :
  len scrolltext = 486
  /\ len color_cycle = 5
  /\ (exists trace,
        run (rounds sizes)
        = (Cut,
           World [] trace
                 (len sizes mod len color_cycle)
                 (len sizes mod len scrolltext)))
  /\ 0 <= len sizes mod len scrolltext < len scrolltext
  /\ 0 <= len sizes mod len color_cycle < len color_cycle
  /\ forall size,
       exists trace,
         run (rounds (sizes ++ [size]))
         = (Cut,
            World [] trace
                  ((len sizes mod len color_cycle + 1) mod len color_cycle)
                  ((len sizes mod len scrolltext + 1) mod len scrolltext)).
Proof.
  split; [reflexivity|]. split; [reflexivity|].
  split; [apply run_rounds|].
  split; [apply Z.mod_pos_bound; reflexivity|].
  split; [apply Z.mod_pos_bound; reflexivity|].
  intros size. destruct (run_rounds (sizes ++ [size])) as [trace Hrun].
  exists trace. rewrite Hrun.
  replace (len (sizes ++ [size])) with (len sizes + 1)
    by (unfold len; rewrite length_app; simpl; lia).
  by rewrite !Zplus_mod_idemp_l.
Qed.

Example three_rounds :
  exists trace,
    run (rounds [Some (80, 24); None; Some (120, 40)])
    = (Cut, World [] trace 3 3).
Proof. eexists. vm_compute. reflexivity. Qed.

(** ** The size query *)

(** C9: when the size query raises OSError the round goes on with
    80 x 24: nothing is raised, the frame of that size is written and
    flushed, the counters advance, and the log holds these calls only. *)
Theorem size_query_failure_recovered (rest : list reply) trace ci sp :
  0 <= ci < len color_cycle ->
  terminal_size (World (Raises OSError :: rest) trace ci sp)
  = (Val (80, 24), World rest trace ci sp)
  /\ exists buffer,
       frame 80 24 ci sp = Val buffer
       /\ tick (World (Raises OSError :: Done :: Done :: Done :: rest)
                      trace ci sp)
          = (Val (),
             World rest (trace ++ [Write buffer; Flush; Sleep])
                   ((ci + 1) mod len color_cycle)
                   ((sp + 1) mod len scrolltext)).
Proof.
  intros Hci. split; [reflexivity|].
  exact (tick_round None rest trace ci sp Hci).
Qed.

Lemma size_query_failure_recovered_witness :
  terminal_size (World [Raises OSError] [] 2 7)
  = (Val (80, 24), World [] [] 2 7)
  /\ exists buffer,
       frame 80 24 2 7 = Val buffer
       /\ tick (World [Raises OSError; Done; Done; Done] [] 2 7)
          = (Val (),
             World [] ([] ++ [Write buffer; Flush; Sleep])
                   ((2 + 1) mod len color_cycle)
                   ((7 + 1) mod len scrolltext)).
Proof.
  apply (size_query_failure_recovered [] [] 2 7).
  change (len color_cycle) with 5. lia.
Defined.

(** Any other exception of the size query is not caught in the round. *)
Lemma size_query_other_exception (e : exn) (rest : list reply) trace ci sp :
  e <> OSError ->
  tick (World (Raises e :: rest) trace ci sp)
  = (Exn e, World rest trace ci sp).
Proof. intros He. destruct e; try reflexivity. congruence. Qed.

(** ** What a computation adds to the log *)

Lemma frame_result (term_width term_height ci sp : Z) :
  (exists buffer, frame term_width term_height ci sp = Val buffer)
  \/ frame term_width term_height ci sp = Exn IndexError.
Proof.
  destruct (getitem color_cycle ci) as [color|] eqn:Hc.
  - left. eexists. by apply frame_shape.
  - right. unfold frame. by rewrite Hc.
Qed.

Section Calls.

Variable allowed : event -> Prop.

Lemma no_events (trace : list event) :
  exists events, trace = trace ++ events /\ Forall allowed events.
Proof. exists []. by rewrite app_nil_r. Qed.

Lemma behaves_ret {A} (a : A) (post : A -> Prop) :
  post a -> behaves allowed 0 (ret a) post.
Proof.
  intros Hpost w r w' Hrun. unfold ret in Hrun.
  injection Hrun as <- <-.
  split; [apply no_events|]. split; [lia|]. split; [done|].
  intros a' Ha. injection Ha as <-. split; [done|lia].
Qed.

Lemma behaves_call (ev : event) :
  allowed ev -> behaves allowed 1 (call ev) (fun _ => True).
Proof.
  intros Hev w r w' Hrun. unfold call in Hrun.
  destruct (script w) as [|[| |e] rest] eqn:Hscript;
    injection Hrun as <- <-; simpl; rewrite ?Hscript; simpl.
  - split; [apply no_events|]. split; [lia|done].
  - split; [by exists [ev]; split; [|repeat constructor]|].
    split; [lia|]. split; [done|]. intros _ _. split; [done|lia].
  - split; [apply no_events|]. split; [lia|done].
  - split; [apply no_events|]. split; [lia|done].
Qed.

Lemma behaves_bind {A B} (n n' : nat) (m : M A) (k : A -> M B)
    (mid : A -> Prop) (post : B -> Prop) :
  behaves allowed n m mid ->
  (forall a, mid a -> behaves allowed n' (k a) post) ->
  behaves allowed (n + n') (bind m k) post.
Proof.
  intros Hm Hk w r w' Hrun. unfold bind in Hrun.
  destruct (m w) as [r1 w1] eqn:Hmw.
  destruct (Hm w r1 w1 Hmw)
    as ((ev1 & Hout1 & Hall1) & Hlen1 & Hfuel1 & Hval1).
  destruct r1 as [a|e| |]; [| | |done].
  - destruct (Hval1 a eq_refl) as [Hmid Hn].
    destruct (Hk a Hmid w1 r w' Hrun)
      as ((ev2 & Hout2 & Hall2) & Hlen2 & Hfuel2 & Hval2).
    split; [|split; [|split]].
    + exists (ev1 ++ ev2). rewrite Hout2, Hout1, <- app_assoc.
      split; [done|]. by apply Forall_app.
    + lia.
    + done.
    + intros b Hb. destruct (Hval2 b Hb) as [Hpost Hn']. split; [done|lia].
  - injection Hrun as <- <-. split; [by exists ev1|]. split; [lia|done].
  - injection Hrun as <- <-. split; [by exists ev1|]. split; [lia|done].
Qed.

Lemma behaves_weaken {A} (n n' : nat) (m : M A) (post post' : A -> Prop) :
  (n' <= n)%nat -> (forall a, post a -> post' a) ->
  behaves allowed n m post -> behaves allowed n' m post'.
Proof.
  intros Hn Hpost Hm w r w' Hrun.
  destruct (Hm w r w' Hrun) as (Hev & Hlen & Hfuel & Hval).
  split; [done|]. split; [done|]. split; [done|].
  intros a Ha. destruct (Hval a Ha). split; [auto|lia].
Qed.

End Calls.

(** ** The calls of the loop *)

Lemma behaves_advance : behaves loop_event 0 advance (fun _ => True).
Proof.
  intros w r w' Hrun. unfold advance in Hrun. injection Hrun as <- <-.
  simpl. split; [apply no_events|]. split; [lia|]. split; [done|].
  intros _ _. split; [done|lia].
Qed.

Lemma behaves_render (term_width term_height : Z) :
  behaves loop_event 0 (render term_width term_height)
          (fun buffer => loop_event (Write buffer)).
Proof.
  intros w r w' Hrun. unfold render in Hrun. injection Hrun as <- <-.
  split; [apply no_events|]. split; [lia|]. split.
  - destruct (frame_result term_width term_height
                (color_index w) (scroll_pos w)) as [[buffer ->]| ->]; done.
  - intros buffer Hframe. split; [|lia]. simpl. eauto.
Qed.

Lemma behaves_terminal_size :
  behaves loop_event 1 terminal_size (fun _ => True).
Proof.
  intros w r w' Hrun.
  unfold terminal_size, try_except, os_get_terminal_size in Hrun.
  destruct (script w) as [|[| |e] rest] eqn:Hscript;
    [| | |destruct e]; injection Hrun as <- <-;
    simpl; rewrite ?Hscript; simpl;
    (split; [apply no_events|]); (split; [lia|]); (split; [done|]);
    try done; intros _ _; (split; [done|lia]).
Qed.

Lemma behaves_tick : behaves loop_event 1 tick (fun _ => True).
Proof.
  unfold tick.
  apply (behaves_bind loop_event 1 0 _ _ (fun _ => True));
    [apply behaves_terminal_size|intros size _].
  apply (behaves_bind loop_event 0 0 _ _
           (fun buffer => loop_event (Write buffer)));
    [apply behaves_render|intros buffer Hbuffer].
  apply (behaves_weaken loop_event 3 0 _ (fun _ => True)); [lia|done|].
  apply (behaves_bind loop_event 1 2 _ _ (fun _ => True));
    [by apply behaves_call|intros _ _].
  apply (behaves_bind loop_event 1 1 _ _ (fun _ => True));
    [by apply behaves_call|intros _ _].
  apply (behaves_bind loop_event 0 1 _ _ (fun _ => True));
    [apply behaves_advance|intros _ _].
  by apply behaves_call.
Qed.

(** The loop adds only loop calls to the log, never returns, and does
    not run out of fuel when it has more fuel than there are replies. *)
Lemma while_true_tick (fuel : nat) :
  forall w r w',
    while_true fuel tick w = (r, w') ->
    (exists events, out w' = out w ++ events /\ Forall loop_event events)
    /\ (forall a, r <> Val a)
    /\ ((length (script w) < fuel)%nat -> r <> OutOfFuel).
Proof.
  induction fuel as [|fuel IH]; intros w r w' Hrun.
  - injection Hrun as <- <-.
    split; [apply no_events|]. split; [done|]. lia.
  - rewrite while_true_S in Hrun.
    destruct (tick w) as [r1 w1] eqn:Htick.
    destruct (behaves_tick w r1 w1 Htick)
      as ((ev1 & Hout1 & Hall1) & Hlen1 & Hfuel1 & Hval1).
    destruct r1 as [a|e| |]; [| | |done].
    + destruct (Hval1 a eq_refl) as [_ Hn].
      destruct (IH w1 r w' Hrun) as ((ev2 & Hout2 & Hall2) & Hnoval & Hfuel).
      split; [|split].
      * exists (ev1 ++ ev2). rewrite Hout2, Hout1, <- app_assoc.
        split; [done|]. by apply Forall_app.
      * done.
      * intros Hlt. apply Hfuel. lia.
    + injection Hrun as <- <-. split; [by eauto|]. done.
    + injection Hrun as <- <-. split; [by eauto|]. done.
Qed.

(** ** The log of the [try] body *)

Lemma try_body_trace (fuel : nat) (replies : list reply) r w1 :
  try_body fuel (start replies) = (r, w1) ->
  body_trace (out w1)
  /\ (forall a, r <> Val a)
  /\ ((length replies < fuel)%nat -> r <> OutOfFuel).
Proof.
  destruct replies as [|[| |e] [|[| |e'] rest]];
    try (intros Hrun; injection Hrun as <- <-; simpl;
         split; [unfold body_trace; by auto|]; by split).
  rewrite try_body_rounds. intros Hrun.
  destruct (while_true_tick fuel _ r w1 Hrun)
    as ((events & Hout & Hall) & Hnoval & Hfuel).
  split; [|split; [done|]].
  - right. right. exists events. by split.
  - intros Hlt. apply Hfuel. simpl in *. lia.
Qed.

(** The model has fuel enough: [run] never stops for lack of it. *)
Lemma run_has_fuel (replies : list reply) : (run replies).1 <> OutOfFuel.
Proof.
  unfold run, main, try_finally, try_except.
  destruct (try_body (S (length replies)) (start replies)) as [r w1] eqn:Hbody.
  destruct (try_body_trace _ _ _ _ Hbody) as (_ & Hnoval & Hfuel).
  destruct r as [a|e| |]; [by destruct (Hnoval a)| |done|].
  - destruct (on_interrupt e) as [h|] eqn:Hh.
    + destruct e; try discriminate. injection Hh as <-.
      unfold print, cleanup, bind, sys_stdout_write, sys_stdout_flush, pure,
        call.
      destruct w1 as [scr o ci sp]. simpl.
      destruct scr as [|[| |?] [|[| |?] [|[| |?] [|[| |?] ?]]]]; simpl;
        discriminate.
    + unfold cleanup, bind, sys_stdout_write, sys_stdout_flush, pure, call.
      destruct w1 as [scr o ci sp]. simpl.
      destruct scr as [|[| |?] [|[| |?] [|[| |?] ?]]]; simpl; discriminate.
  - exfalso. apply Hfuel; [lia|done].
Qed.

(** ** Leaving the program *)










(** The reset sequence is also part of the text of every frame: a frame
    ends with it.  The restoration is therefore counted in calls of
    [sys.stdout.write], not in bytes. *)
Lemma frame_ends_with_reset (term_width term_height ci sp : Z) (s : str) :
  frame term_width term_height ci sp = Val s ->
  exists text, s = text ++ style_reset.
Proof.
  intros Hframe. destruct (getitem color_cycle ci) as [color|] eqn:Hc.
  - rewrite (frame_shape _ _ _ _ color Hc) in Hframe.
    apply Val_inj in Hframe. subst s. unfold scroller_line.
    eexists. rewrite !app_assoc. reflexivity.
  - unfold frame in Hframe. rewrite Hc in Hframe. discriminate.
Qed.




(** A second Ctrl+C while the [finally] block runs: the show sequence is
    written, the reset sequence is not. *)
Example second_interrupt_log :
  run [Done; Done; Raises KeyboardInterrupt; Done; Done;
       Raises KeyboardInterrupt]
  = (Exn KeyboardInterrupt,
     World []
           [Write cursor_hide; Flush; Print farewell; Write cursor_show]
           0 0).
Proof. vm_compute. reflexivity. Qed.

(** The same run as [main] sees it to the end. *)
Example interrupted_run_log :
  run interrupted_run
  = (Val (),
     World []
           [Write cursor_hide; Flush; Write first_frame; Flush;
            Print farewell; Write cursor_show; Write style_reset; Flush]
           1 1).
Proof. vm_compute. reflexivity. Qed.

(** A run whose first frame cannot be written: the exception passes
    [main] after the terminal is restored. *)
Example memory_error_log :
  run [Done; Done; Size 80 24; Raises (OtherError "MemoryError");
       Done; Done; Done]
  = (Exn (OtherError "MemoryError"),
     World []
           [Write cursor_hide; Flush;
            Write cursor_show; Write style_reset; Flush]
           0 0).
Proof. vm_compute. reflexivity. Qed.

(** ** The log of a run *)

Lemma while_true_rounds_log (sizes : list (option (Z * Z))) :
  forall (fuel : nat) trace (k : nat),
    (length sizes < fuel)%nat ->
    while_true fuel tick
      (World (mjoin (round_replies <$> sizes)) trace
             (Z.of_nat k mod len color_cycle)
             (Z.of_nat k mod len scrolltext))
    = (Cut,
       World [] (trace ++ rounds_log k sizes)
             (Z.of_nat (k + length sizes) mod len color_cycle)
             (Z.of_nat (k + length sizes) mod len scrolltext)).
Proof.
  induction sizes as [|size sizes IH]; intros fuel trace k Hfuel.
  - destruct fuel as [|fuel]; [simpl in Hfuel; lia|].
    simpl. rewrite Nat.add_0_r, app_nil_r. reflexivity.
  - destruct fuel as [|fuel]; [simpl in Hfuel; lia|].
    destruct (tick_round size (mjoin (round_replies <$> sizes)) trace
                (Z.of_nat k mod len color_cycle)
                (Z.of_nat k mod len scrolltext))
      as (buffer & Hframe & Htick);
      [apply Z.mod_pos_bound; reflexivity|].
    replace (mjoin (round_replies <$> size :: sizes))
      with (round_replies size ++ mjoin (round_replies <$> sizes))
      by reflexivity.
    rewrite while_true_S, Htick.
    rewrite !Zplus_mod_idemp_l.
    replace (Z.of_nat k + 1) with (Z.of_nat (S k)) by lia.
    rewrite IH by (simpl in Hfuel; lia).
    replace (S k + length sizes)%nat with (k + length (size :: sizes))%nat
      by (simpl; lia).
    change (rounds_log k (size :: sizes))
      with (round_log k size ++ rounds_log (S k) sizes).
    unfold round_log at 1, frame_text.
    rewrite Hframe, <- app_assoc. reflexivity.
Qed.

Lemma run_rounds_trace (sizes : list (option (Z * Z))) :
  run (rounds sizes)
  = (Cut,
     World [] ([Write cursor_hide; Flush] ++ rounds_log 0 sizes)
           (len sizes mod len color_cycle)
           (len sizes mod len scrolltext)).
Proof.
  unfold run. apply main_cut. unfold rounds at 2.
  rewrite try_body_rounds.
  apply (while_true_rounds_log sizes _ [Write cursor_hide; Flush] 0).
  unfold rounds. simpl length. rewrite length_rounds. lia.
Qed.

(** X1: observed for N rounds, the log of [main] is the hide sequence
    and a flush, then for each round, in order, the write of the frame
    for that round's size, palette index i mod 5 and scroll offset
    i mod 486, a flush and a sleep, and nothing else; in particular
    nothing is printed and the terminal is not restored while the loop
    runs. *)
Theorem run_rounds_log (sizes : list (option (Z * Z))) :
  run (rounds sizes)
  = (Cut,
     World [] ([Write cursor_hide; Flush] ++ rounds_log 0 sizes)
           (len sizes mod len color_cycle)
           (len sizes mod len scrolltext)).
Proof. exact (run_rounds_trace sizes). Qed.

(** X2: the palette is a closed rotation: five more rounds, whatever
    sizes the terminal reports in them, bring the palette index back to
    where it was. *)
Theorem palette_closed_rotation
    (sizes : list (option (Z * Z))) (a b c d e : option (Z * Z)) :
  color_index (run (rounds (sizes ++ [a; b; c; d; e]))).2
  = color_index (run (rounds sizes)).2.
Proof.
  rewrite !run_rounds_trace. simpl.
  replace (len (sizes ++ [a; b; c; d; e])) with (len sizes + len color_cycle)
    by (change (len color_cycle) with 5; unfold len;
        rewrite length_app; simpl; lia).
  by rewrite <- Zplus_mod_idemp_r, Z.mod_same, Z.add_0_r.
Qed.

(** X3: the scroller is a full cycle after as many rounds as the scroll
    text has characters: they bring the scroll offset back to where it
    was. *)
Theorem scroll_full_cycle (sizes more : list (option (Z * Z))) :
  len more = len scrolltext ->
  scroll_pos (run (rounds (sizes ++ more))).2
  = scroll_pos (run (rounds sizes)).2.
Proof.
  intros Hmore. rewrite !run_rounds_trace. simpl.
  replace (len (sizes ++ more)) with (len sizes + len more)
    by (unfold len; rewrite length_app; lia).
  by rewrite Hmore, <- Zplus_mod_idemp_r, Z.mod_same, Z.add_0_r.
Qed.

Lemma scroll_full_cycle_witness :
  scroll_pos (run (rounds ([Some (80, 24); None] ++ replicate 486 None))).2
  = scroll_pos (run (rounds [Some (80, 24); None])).2.
Proof.
  apply (scroll_full_cycle [Some (80, 24); None] (replicate 486 None)).
  vm_compute. reflexivity.
Defined.

(** ** The height of a frame *)

Lemma newlines_app (s t : str) :
  newlines (s ++ t) = (newlines s + newlines t)%nat.
Proof. unfold newlines. by rewrite filter_app, length_app. Qed.

Lemma newlines_none (s : str) : 10%N ∉ s -> newlines s = 0%nat.
Proof.
  unfold newlines. induction s as [|x s IH]; intros Hnot; [done|].
  rewrite filter_cons. destruct (decide (x = 10%N)) as [->|Hne].
  - exfalso. apply Hnot. by left.
  - apply IH. intros Hin. apply Hnot. by right.
Qed.

Lemma newlines_mul_NL (n : Z) : Z.of_nat (newlines (mul NL n)) = Z.max 0 n.
Proof.
  unfold NL. rewrite mul_single. unfold newlines.
  assert (Hall : forall k : nat,
             filter (fun c => c = 10%N) (replicate k 10%N) = replicate k 10%N).
  { induction k as [|k IH]; [done|].
    simpl replicate. rewrite filter_cons. simpl. by rewrite IH. }
  rewrite Hall, length_replicate. lia.
Qed.

Lemma no_newline_check (s : str) :
  forallb (fun c => negb (c =? 10)%N) s = true -> 10%N ∉ s.
Proof.
  intros Hall Hin. apply list_elem_of_In in Hin.
  rewrite forallb_forall in Hall. specialize (Hall _ Hin).
  by rewrite N.eqb_refl in Hall.
Qed.

Lemma no_newline_check_all (lines : list str) (line : str) :
  forallb (forallb (fun c => negb (c =? 10)%N)) lines = true ->
  line ∈ lines -> 10%N ∉ line.
Proof.
  intros Hall Hline. apply no_newline_check.
  apply list_elem_of_In in Hline.
  rewrite forallb_forall in Hall. by apply Hall.
Qed.

Lemma scrolltext_no_newline : 10%N ∉ scrolltext.
Proof. apply no_newline_check. vm_compute. reflexivity. Qed.

Lemma slice_subseteq (s : str) (lo hi : Z) : slice s lo hi ⊆ s.
Proof.
  unfold slice. etransitivity; [apply subseteq_take|apply subseteq_drop].
Qed.

Lemma scroller_view_no_newline (term_width scroll_pos : Z) :
  10%N ∉ scroller_view term_width scroll_pos.
Proof.
  unfold scroller_view. intros Hin.
  apply slice_subseteq, elem_of_app in Hin as [Hin|Hin].
  - by apply scrolltext_no_newline.
  - apply slice_subseteq in Hin. by apply scrolltext_no_newline.
Qed.

Lemma scroller_line_no_newline (term_width scroll_pos : Z) :
  newlines (scroller_line term_width scroll_pos) = 0%nat.
Proof.
  unfold scroller_line, ljust. rewrite !newlines_app.
  rewrite (newlines_none (scroller_view term_width scroll_pos))
    by apply scroller_view_no_newline.
  rewrite (newlines_none (replicate _ _))
    by (intros Hin; apply elem_of_replicate_inv in Hin; discriminate).
  reflexivity.
Qed.

Lemma logo_no_newline (line : str) : line ∈ logo -> 10%N ∉ line.
Proof. apply no_newline_check_all. vm_compute. reflexivity. Qed.

Lemma getitem_elem_of {A} (l : list A) (i : Z) (x : A) :
  getitem l i = Some x -> x ∈ l.
Proof.
  unfold getitem. intros Hx.
  destruct (i <? 0); [destruct (i + len l <? 0); [done|]|];
    apply list_elem_of_lookup; eauto.
Qed.

Lemma color_no_newline (ci : Z) (color : str) :
  getitem color_cycle ci = Some color -> 10%N ∉ color.
Proof.
  intros Hc. apply (no_newline_check_all color_cycle).
  - vm_compute. reflexivity.
  - by apply getitem_elem_of in Hc.
Qed.

Lemma logo_rows_newlines (term_width : Z) (color : str) (rows : list str) :
  10%N ∉ color ->
  (forall line, line ∈ rows -> 10%N ∉ line) ->
  newlines (mjoin (logo_row (left_padding_str term_width) color <$> rows))
  = length rows.
Proof.
  intros Hcolor. induction rows as [|row rows IH]; intros Hrows; [done|].
  rewrite fmap_cons.
  change (mjoin (?x :: ?l)) with (x ++ mjoin l).
  rewrite newlines_app, IH by (intros line Hin; apply Hrows; by right).
  unfold logo_row at 1. rewrite !newlines_app.
  rewrite (newlines_none (left_padding_str term_width)).
  - rewrite (newlines_none color), (newlines_none row); [|apply Hrows; by left|done].
    reflexivity.
  - rewrite left_padding_spaces. intros Hin.
    apply elem_of_replicate_inv in Hin. discriminate.
Qed.

Lemma frame_text_shape (term_width term_height ci sp : Z) (color : str) :
  getitem color_cycle ci = Some color ->
  frame_text term_width term_height ci sp
  = cursor_home
    ++ mul NL (top_padding term_height)
    ++ mjoin (logo_row (left_padding_str term_width) color <$> logo)
    ++ mul NL (fill_lines term_height)
    ++ scroller_line term_width sp.
Proof.
  intros Hc. unfold frame_text. by rewrite (frame_shape _ _ _ _ color Hc).
Qed.

Lemma frame_newlines (term_width term_height ci sp : Z) :
  0 <= ci < len color_cycle ->
  Z.of_nat (newlines (frame_text term_width term_height ci sp))
  = Z.max 0 (top_padding term_height) + logo_height
    + Z.max 0 (fill_lines term_height).
Proof.
  intros Hci. destruct (color_cycle_at ci Hci) as (color & Hc & _).
  rewrite (frame_text_shape _ _ _ _ color Hc), !newlines_app.
  rewrite logo_rows_newlines
    by (eauto using color_no_newline, logo_no_newline).
  rewrite scroller_line_no_newline, !Nat2Z.inj_add, !newlines_mul_NL.
  change (newlines cursor_home) with 0%nat. unfold logo_height, len. lia.
Qed.

(** X4: a frame has exactly H - 1 newlines when the terminal has 8 lines
    or more, so the scroller stands on its last line; a smaller terminal
    gets a frame that is taller than it is: 7 newlines for H = 7 and 6
    for every H below. *)
Theorem frame_height (term_width term_height ci sp : Z) :
  0 <= ci < len color_cycle ->
  Z.of_nat (newlines (frame_text term_width term_height ci sp))
  = if 8 <=? term_height then term_height - 1
    else if term_height =? 7 then 7 else 6.
Proof.
  intros Hci. rewrite frame_newlines by done.
  unfold fill_lines, top_padding. change logo_height with 6.
  pose proof (Z.div_mod (term_height - 6 - 2) 2 ltac:(lia)) as Hdiv.
  pose proof (Z.mod_pos_bound (term_height - 6 - 2) 2 ltac:(lia)) as Hmod.
  destruct (Z.leb_spec 8 term_height); [lia|].
  destruct (Z.eqb_spec term_height 7); lia.
Qed.

Lemma frame_height_witness :
  Z.of_nat (newlines (frame_text 80 24 0 0))
  = if 8 <=? 24 then 24 - 1 else if 24 =? 7 then 7 else 6.
Proof.
  apply (frame_height 80 24 0 0). change (len color_cycle) with 5. lia.
Defined.

(** ** Centring and scrolling *)

(** X5: when the terminal is at least as wide as the logo, the logo is
    centred to within one column: the left padding is
    floor((W - logo_width) / 2) spaces, the row fits in the width, and
    the space left on the right is the same or one more. *)
Theorem logo_centred (term_width : Z) :
  logo_width <= term_width ->
  len (left_padding_str term_width) = (term_width - logo_width) / 2
  /\ len (left_padding_str term_width) + logo_width <= term_width
  /\ 0 <= (term_width - logo_width - len (left_padding_str term_width))
          - len (left_padding_str term_width) <= 1.
Proof.
  intros Hw. rewrite left_padding_spaces. unfold len.
  rewrite length_replicate.
  pose proof (Z.div_mod (term_width - logo_width) 2 ltac:(lia)) as Hdiv.
  pose proof (Z.mod_pos_bound (term_width - logo_width) 2 ltac:(lia)) as Hmod.
  assert (0 <= (term_width - logo_width) / 2)
    by (apply Z.div_pos; lia).
  lia.
Qed.

Lemma logo_centred_witness :
  len (left_padding_str 80) = (80 - logo_width) / 2
  /\ len (left_padding_str 80) + logo_width <= 80
  /\ 0 <= (80 - logo_width - len (left_padding_str 80))
          - len (left_padding_str 80) <= 1.
Proof. apply (logo_centred 80). vm_compute. discriminate. Defined.

(** X6: from one round to the next the scroller moves left by exactly
    one character, also when the offset wraps from 485 to 0: character
    [j] of the next view is character [j + 1] of this one. *)
Theorem scroller_moves_one (term_width scroll_pos : Z) (j : nat) :
  0 <= scroll_pos < len scrolltext ->
  term_width <= len scrolltext ->
  Z.of_nat j + 1 < term_width ->
  scroller_view term_width ((scroll_pos + 1) mod len scrolltext) !! j
  = scroller_view term_width scroll_pos !! S j.
Proof.
  intros Hpos Hw Hj.
  destruct (window_lookup scrolltext term_width
              ((scroll_pos + 1) mod len scrolltext) j) as [Hnext _];
    [apply scroll_pos_step|lia|by left|].
  destruct (window_lookup scrolltext term_width scroll_pos (S j))
    as [Hthis _]; [done|lia|by left|].
  etransitivity; [exact Hnext|]. symmetry.
  etransitivity; [exact Hthis|].
  rewrite Zplus_mod_idemp_l.
  by replace (scroll_pos + 1 + Z.of_nat j) with (scroll_pos + Z.of_nat (S j))
    by lia.
Qed.

Lemma scroller_moves_one_witness :
  scroller_view 80 ((485 + 1) mod len scrolltext) !! 10%nat
  = scroller_view 80 485 !! 11%nat.
Proof.
  apply (scroller_moves_one 80 485 10).
  - change (len scrolltext) with 486. lia.
  - change (len scrolltext) with 486. lia.
  - lia.
Defined.

Lemma window_length (text : str) (width pos : Z) :
  0 <= pos < len text ->
  0 <= width ->
  len (window text width pos)
  = Z.min width (len text + Z.min width (len text) - pos).
Proof.
  intros Hpos Hw. rewrite window_nat by lia. unfold len in *.
  rewrite length_take, length_drop, length_app, length_take. lia.
Qed.

(** X7: the view has W characters when the terminal is not wider than
    the text; on a wider terminal it has the characters that are left of
    the doubled text, 2 * 486 - offset, when these are fewer than W. *)
Theorem scroller_view_length (term_width scroll_pos : Z) :
  0 <= scroll_pos < len scrolltext ->
  0 <= term_width ->
  len (scroller_view term_width scroll_pos)
  = Z.min term_width
          (len scrolltext + Z.min term_width (len scrolltext) - scroll_pos).
Proof.
  intros Hpos Hw. rewrite scroller_view_window. by apply window_length.
Qed.

Lemma scroller_view_length_witness :
  len (scroller_view 500 480)
  = Z.min 500 (len scrolltext + Z.min 500 (len scrolltext) - 480).
Proof.
  apply (scroller_view_length 500 480).
  - change (len scrolltext) with 486. lia.
  - lia.
Defined.

Lemma scrolltext_period (i : nat) :
  (i < length scrolltext)%nat ->
  scrolltext !! Z.to_nat ((Z.of_nat i + 162) mod len scrolltext)
  = scrolltext !! i.
Proof.
  assert (Hall :
    forallb (fun i : nat =>
               bool_decide
                 (scrolltext !! Z.to_nat ((Z.of_nat i + 162) mod len scrolltext)
                  = scrolltext !! i))
            (seq 0 (length scrolltext)) = true) by (vm_compute; reflexivity).
  intros Hi. rewrite forallb_forall in Hall.
  specialize (Hall i). apply bool_decide_eq_true in Hall; [done|].
  apply in_seq. lia.
Qed.

Lemma window_full_length (text : str) (width pos : Z) :
  0 <= pos < len text -> 0 <= width <= len text ->
  length (window text width pos) = Z.to_nat width.
Proof.
  intros Hpos Hw. pose proof (window_length text width pos Hpos) as Hlen.
  unfold len in *. lia.
Qed.

(** A text that reads the same [p] characters further on, circularly,
    shows the same window [p] positions further on. *)
Lemma window_period (text : str) (p width pos : Z) :
  (forall i : nat,
     (i < length text)%nat ->
     text !! Z.to_nat ((Z.of_nat i + p) mod len text) = text !! i) ->
  0 <= pos < len text ->
  0 <= width <= len text ->
  window text width ((pos + p) mod len text) = window text width pos.
Proof.
  intros Hperiod Hpos Hw.
  assert (Hlen : 0 < len text) by lia.
  assert (Hlater : 0 <= (pos + p) mod len text < len text)
    by (apply Z.mod_pos_bound; lia).
  apply list_eq. intros j.
  destruct (Z.lt_ge_cases (Z.of_nat j) width) as [Hj|Hj].
  - destruct (window_lookup text width ((pos + p) mod len text) j)
      as [-> _]; [done|done|left; lia|].
    destruct (window_lookup text width pos j) as [-> _];
      [done|done|left; lia|].
    pose proof (Z.mod_pos_bound (pos + Z.of_nat j) (len text) Hlen) as Hm.
    rewrite <- (Hperiod (Z.to_nat ((pos + Z.of_nat j) mod len text)))
      by (unfold len in *; lia).
    rewrite Z2Nat.id by lia.
    rewrite !Zplus_mod_idemp_l. do 3 f_equal. lia.
  - transitivity (@None N); [|symmetry]; apply lookup_ge_None;
      rewrite window_full_length by done; lia.
Qed.

(** X8: the scroll text is one message three times, and the scroller
    shows it: in a terminal that is not wider than the text, the view
    162 rounds later is the same view. *)
Theorem scroller_period (term_width scroll_pos : Z) :
  0 <= scroll_pos < len scrolltext ->
  0 <= term_width <= len scrolltext ->
  scroller_view term_width ((scroll_pos + 162) mod len scrolltext)
  = scroller_view term_width scroll_pos.
Proof.
  intros Hpos Hw.
  exact (window_period scrolltext 162 term_width scroll_pos
           scrolltext_period Hpos Hw).
Qed.

Lemma scroller_period_witness :
  scroller_view 80 ((400 + 162) mod len scrolltext) = scroller_view 80 400.
Proof.
  apply (scroller_period 80 400); change (len scrolltext) with 486; lia.
Defined.

(** ** Exceptions inside a round *)



(** ** Leaving [main] *)

Lemma cleanup_inv (w : world) (r : result unit) (w' : world) :
  cleanup w = (r, w') ->
  r <> OutOfFuel
  /\ (forall a, r = Val a ->
      out w' = out w ++ [Write cursor_show; Write style_reset; Flush]).
Proof.
  destruct w as [scr trace ci sp].
  unfold cleanup, bind, sys_stdout_write, sys_stdout_flush, pure, call.
  replace (colors_at "reset") with (Val style_reset) by reflexivity.
  simpl.
  destruct scr as [|[| |?] [|[| |?] [|[| |?] scr]]]; simpl;
    intros Hrun; injection Hrun as <- <-; split; try done.
  intros _ _. simpl. by rewrite <- !app_assoc.
Qed.

(** X10: [main] returns only after KeyboardInterrupt: when it returns,
    the [try] body was ended by KeyboardInterrupt, and the log is the log
    of the body, the farewell, the show sequence, the reset sequence and
    a flush.  The loop itself never ends. *)
Theorem main_returns_after_interrupt
    (fuel : nat) (replies : list reply) (w2 : world) :
  main fuel (start replies) = (Val (), w2) ->
  exists w1,
    try_body fuel (start replies) = (Exn KeyboardInterrupt, w1)
    /\ out w2 = out w1 ++ closing_calls KeyboardInterrupt.
Proof.
  intros Hmain. unfold main, try_finally, try_except in Hmain.
  destruct (try_body fuel (start replies)) as [r w1] eqn:Hbody.
  destruct (try_body_trace _ _ _ _ Hbody) as (_ & Hnoval & _).
  destruct r as [a|e| |]; [by destruct (Hnoval a)| |done|done].
  exists w1.
  destruct e; simpl in Hmain;
    try (destruct (cleanup w1) as [[| | |] w] eqn:Hc; discriminate).
  split; [done|].
  destruct (print farewell w1) as [r' w1'] eqn:Hprint.
  unfold print, call in Hprint.
  destruct w1 as [scr trace ci sp]. simpl in Hprint.
  destruct scr as [|[| |e] scr]; injection Hprint as <- <-;
    try discriminate;
    try (destruct (cleanup _) as [[| | |] w] eqn:Hc; discriminate).
  destruct (cleanup _) as [rc wc] eqn:Hc.
  destruct (cleanup_inv _ _ _ Hc) as [_ Hout].
  destruct rc as [[]| | |]; try discriminate.
  injection Hmain as <-. rewrite (Hout () eq_refl). simpl.
  by rewrite <- app_assoc.
Qed.

Lemma main_returns_after_interrupt_witness :
  exists w1,
    try_body 11 (start interrupted_run) = (Exn KeyboardInterrupt, w1)
    /\ out (World []
                 [Write cursor_hide; Flush; Write first_frame; Flush;
                  Print farewell; Write cursor_show; Write style_reset;
                  Flush] 1 1)
       = out w1 ++ closing_calls KeyboardInterrupt.
Proof.
  apply (main_returns_after_interrupt 11 interrupted_run).
  vm_compute. reflexivity.
Defined.





(** ** Where exceptions come from *)

Lemma faithful_ret {A} (a : A) : faithful (ret a).
Proof.
  intros w r w' Hci Hrun. injection Hrun as <- <-.
  split; [done|]. split; [by exists []|done].
Qed.

Lemma faithful_call (ev : event) : faithful (call ev).
Proof.
  intros w r w' Hci Hrun. unfold call in Hrun.
  destruct (script w) as [|[| |e] rest] eqn:Hscript;
    injection Hrun as <- <-; simpl; rewrite ?Hscript;
    (split; [done|]).
  - split; [by exists []|done].
  - split; [by exists [Done]|done].
  - split; [by exists []|done].
  - split; [by exists [Raises e]|].
    intros e' He'. injection He' as <-. by left.
Qed.

Lemma faithful_get_terminal_size : faithful os_get_terminal_size.
Proof.
  intros w r w' Hci Hrun. unfold os_get_terminal_size in Hrun.
  destruct (script w) as [|[|columns lines|e] rest] eqn:Hscript;
    injection Hrun as <- <-; simpl; rewrite ?Hscript;
    (split; [done|]).
  - split; [by exists []|done].
  - split; [by exists []|done].
  - split; [by exists [Size columns lines]|done].
  - split; [by exists [Raises e]|].
    intros e' He'. injection He' as <-. by left.
Qed.

Ltac pass_through Hrun used Hexn :=
  injection Hrun as <- <-; split; [done|]; split; [by exists used|];
  let e0 := fresh "e" in
  let He0 := fresh "He" in
  intros e0 He0; try discriminate; injection He0 as <-; by apply Hexn.

Lemma faithful_bind {A B} (m : M A) (k : A -> M B) :
  faithful m -> (forall a, faithful (k a)) -> faithful (bind m k).
Proof.
  intros Hm Hk w r w' Hci Hrun. unfold bind in Hrun.
  destruct (m w) as [r1 w1] eqn:Hmw.
  destruct (Hm w r1 w1 Hci Hmw) as (Hci1 & (used1 & Hused1) & Hexn1).
  destruct r1 as [a|e| |];
    [|pass_through Hrun used1 Hexn1..].
  destruct (Hk a w1 r w' Hci1 Hrun) as (Hci2 & (used2 & Hused2) & Hexn2).
  split; [done|]. split.
  - exists (used1 ++ used2). by rewrite Hused1, Hused2, app_assoc.
  - intros e He. rewrite Hused1. apply elem_of_app. right. by apply Hexn2.
Qed.

Lemma faithful_try_except {A} (body : M A) (handler : exn -> option (M A)) :
  faithful body ->
  (forall e h, handler e = Some h -> faithful h) ->
  faithful (try_except body handler).
Proof.
  intros Hbody Hhandler w r w' Hci Hrun. unfold try_except in Hrun.
  destruct (body w) as [r1 w1] eqn:Hbw.
  destruct (Hbody w r1 w1 Hci Hbw) as (Hci1 & (used1 & Hused1) & Hexn1).
  destruct r1 as [a|e| |];
    [pass_through Hrun used1 Hexn1
    |
    |pass_through Hrun used1 Hexn1..].
  destruct (handler e) as [h|] eqn:Hh;
    [|pass_through Hrun used1 Hexn1].
  destruct (Hhandler e h Hh w1 r w' Hci1 Hrun)
    as (Hci2 & (used2 & Hused2) & Hexn2).
  split; [done|]. split.
  - exists (used1 ++ used2). by rewrite Hused1, Hused2, app_assoc.
  - intros e' He'. rewrite Hused1. apply elem_of_app. right. by apply Hexn2.
Qed.

Lemma faithful_try_finally {A} (body : M A) (final : M unit) :
  faithful body -> faithful final -> faithful (try_finally body final).
Proof.
  intros Hbody Hfinal w r w' Hci Hrun. unfold try_finally in Hrun.
  destruct (body w) as [r1 w1] eqn:Hbw.
  destruct (Hbody w r1 w1 Hci Hbw) as (Hci1 & (used1 & Hused1) & Hexn1).
  assert (Hgo : forall r2 w2,
             final w1 = (r2, w2) ->
             0 <= color_index w2 < len color_cycle
             /\ (exists used, script w = used ++ script w2)
             /\ forall e, r2 = Exn e -> Raises e ∈ script w).
  { intros r2 w2 Hf.
    destruct (Hfinal w1 r2 w2 Hci1 Hf) as (Hci2 & (used2 & Hused2) & Hexn2).
    split; [done|]. split.
    - exists (used1 ++ used2). by rewrite Hused1, Hused2, app_assoc.
    - intros e He. rewrite Hused1. apply elem_of_app. right.
      by apply Hexn2. }
  destruct r1 as [a|e| |];
    [| |pass_through Hrun used1 Hexn1..];
    destruct (final w1) as [r2 w2] eqn:Hf;
    destruct (Hgo r2 w2 eq_refl) as (Hci2 & Hused & Hexn2);
    destruct r2 as [u|e2| |]; injection Hrun as <- <-;
    (split; [done|]); (split; [done|]);
    intros e0 He0; try discriminate; injection He0 as <-;
    first [by apply Hexn2|by apply Hexn1].
Qed.

Lemma faithful_render (term_width term_height : Z) :
  faithful (render term_width term_height).
Proof.
  intros w r w' Hci Hrun. unfold render in Hrun. injection Hrun as <- <-.
  split; [done|]. split; [by exists []|].
  destruct (frame_total term_width term_height (color_index w)
              (scroll_pos w) Hci) as [buffer ->]. done.
Qed.

Lemma faithful_advance : faithful advance.
Proof.
  intros w r w' Hci Hrun. unfold advance in Hrun. injection Hrun as <- <-.
  simpl. split; [apply color_index_step|]. split; [by exists []|done].
Qed.

Lemma faithful_tick : faithful tick.
Proof.
  unfold tick. apply faithful_bind.
  - apply faithful_try_except; [apply faithful_get_terminal_size|].
    intros e h He. destruct e; try discriminate. injection He as <-.
    apply faithful_ret.
  - intros size. apply faithful_bind; [apply faithful_render|].
    intros buffer.
    repeat (apply faithful_bind;
            [first [apply faithful_call|apply faithful_advance]|intros _]).
    apply faithful_call.
Qed.

Lemma faithful_while_true (fuel : nat) : faithful (while_true fuel tick).
Proof.
  induction fuel as [|fuel IH].
  - intros w r w' Hci Hrun. injection Hrun as <- <-.
    split; [done|]. split; [by exists []|done].
  - change (while_true (S fuel) tick)
      with (bind tick (fun _ => while_true fuel tick)).
    apply faithful_bind; [apply faithful_tick|done].
Qed.

Lemma faithful_main (fuel : nat) : faithful (main fuel).
Proof.
  unfold main. apply faithful_try_finally.
  - apply faithful_try_except.
    + unfold try_body.
      repeat (apply faithful_bind; [apply faithful_call|intros _]).
      apply faithful_while_true.
    + intros e h He. destruct e; try discriminate. injection He as <-.
      apply faithful_call.
  - unfold cleanup.
    apply faithful_bind; [apply faithful_call|intros _].
    apply faithful_bind.
    + intros w r w' Hci Hrun. unfold pure in Hrun.
      replace (colors_at "reset") with (Val style_reset) in Hrun
        by reflexivity.
      injection Hrun as <- <-. split; [done|]. split; [by exists []|done].
    + intros reset.
      apply faithful_bind; [apply faithful_call|intros _].
      apply faithful_call.
Qed.

(** X13: [main] raises nothing of its own: an exception it ends with
    was raised by one of its calls.  In particular the index into the
    palette and the keys of [colors] never fail. *)
Theorem exceptions_come_from_calls
    (replies : list reply) (e : exn) (w : world) :
  run replies = (Exn e, w) -> Raises e ∈ replies.
Proof.
  intros Hrun.
  destruct (faithful_main (S (length replies)) (start replies) (Exn e) w)
    as (_ & _ & Hexn);
    [change (len color_cycle) with 5; simpl; lia|exact Hrun|].
  by apply Hexn.
Qed.

Lemma exceptions_come_from_calls_witness :
  Raises (OtherError "MemoryError")
  ∈ [Done; Done; Size 80 24; Raises (OtherError "MemoryError");
     Done; Done; Done].
Proof.
  apply (exceptions_come_from_calls _ _
           (World [] [Write cursor_hide; Flush;
                      Write cursor_show; Write style_reset; Flush] 0 0)).
  vm_compute. reflexivity.
Defined.
